(** * ATen/native/vulkan/api/Resource.h

    A shallow embedding of the Vulkan resource layer of ATen: the memory
    mapping interface ([Resource::Memory]), the buffer, image and fence
    values with their validity conversions, and the sampler descriptor with
    its equality and hash, together with the sampler cache built on them.

    Handles and enumerants are integers, as they are in the C API: a handle
    is [VK_NULL_HANDLE] or the address or index of a driver object, an
    enumerant is the value of a C enum. *)

From stdpp Require Import base decidable countable numbers strings list gmap.

Local Open Scope Z_scope.

(** ** Driver types (vulkan_core.h, vk_mem_alloc.h) *)

Abbreviation VkDevice := Z (only parsing).
Abbreviation VkBuffer := Z (only parsing).
Abbreviation VkImage := Z (only parsing).
Abbreviation VkImageView := Z (only parsing).
Abbreviation VkSampler := Z (only parsing).
Abbreviation VkFence := Z (only parsing).
Abbreviation VkDeviceSize := Z (only parsing).
Abbreviation VkFilter := Z (only parsing).
Abbreviation VkSamplerMipmapMode := Z (only parsing).
Abbreviation VkSamplerAddressMode := Z (only parsing).
Abbreviation VkBorderColor := Z (only parsing).
Abbreviation VkImageType := Z (only parsing).
Abbreviation VkImageViewType := Z (only parsing).
Abbreviation VkImageLayout := Z (only parsing).
Abbreviation VkFormat := Z (only parsing).
Abbreviation VkBufferUsageFlags := Z (only parsing).
Abbreviation VkImageUsageFlags := Z (only parsing).
Abbreviation VmaMemoryUsage := Z (only parsing).
Abbreviation VmaAllocator := Z (only parsing).
Abbreviation VmaAllocation := Z (only parsing).
Abbreviation size_t := Z (only parsing).

Definition VK_NULL_HANDLE : Z := 0.
Definition UINT64_MAX : Z := 2 ^ 64 - 1.

Record VkExtent3D := {
  width : Z;
  height : Z;
  depth : Z;
}.

Record VmaAllocationInfo := {
  memoryType : Z;
  deviceMemory : Z;
  alloc_offset : VkDeviceSize;
  alloc_size : VkDeviceSize;
  pMappedData : Z;
}.

(** ** C++ types

    The types a [Type] template argument can be and [Access::Pointer]
    computes with: a named object type such as [float], or a pointer, each
    with its top-level [const] qualifier; a reference; a function type.
    [const float*] is [PointerTo false (Named true "float")].  A pointer
    points to, and a reference refers to, an object or a function type. *)

Inductive ctype :=
  | Named (c : bool) (name : string)
  | PointerTo (c : bool) (pointee : ctype)
  | LvalueRef (referred : ctype)
  | RvalueRef (referred : ctype)
  | Function (signature : string).

Definition is_object_type (t : ctype) : bool :=
  match t with
  | Named _ _ | PointerTo _ _ => true
  | LvalueRef _ | RvalueRef _ | Function _ => false
  end.

Definition is_reference_type (t : ctype) : bool :=
  match t with
  | LvalueRef _ | RvalueRef _ => true
  | Named _ _ | PointerTo _ _ | Function _ => false
  end.

(** References and function types have no [const] of their own. *)
Definition is_const (t : ctype) : bool :=
  match t with
  | Named c _ => c
  | PointerTo c _ => c
  | LvalueRef _ | RvalueRef _ | Function _ => false
  end.

(** [std::add_const_t]: the identity on references and function types. *)
Definition add_const_t (t : ctype) : ctype :=
  match t with
  | Named _ n => Named true n
  | PointerTo _ p => PointerTo true p
  | LvalueRef _ | RvalueRef _ | Function _ => t
  end.

(** [std::add_pointer_t]: a pointer to the type, or to the type referred
    to when it is a reference. *)
Definition add_pointer_t (t : ctype) : ctype :=
  match t with
  | LvalueRef u | RvalueRef u => PointerTo false u
  | Named _ _ | PointerTo _ _ | Function _ => PointerTo false t
  end.

(** [std::conditional_t]. *)
Definition conditional_t (b : bool) (T F : ctype) : ctype :=
  if b then T else F.

(** A pointer through which the pointee may be written: a pointer to an
    object that is not const. *)
Definition is_mutable_pointer (t : ctype) : bool :=
  match t with
  | PointerTo _ p => is_object_type p && negb (is_const p)
  | Named _ _ | LvalueRef _ | RvalueRef _ | Function _ => false
  end.

(** A pointer type: what [reinterpret_cast] makes of a [void*]. *)
Definition is_pointer_type (t : ctype) : bool :=
  match t with
  | PointerTo _ _ => true
  | Named _ _ | LvalueRef _ | RvalueRef _ | Function _ => false
  end.

(** ** Translation outcome of a call expression *)

Inductive diagnostic :=
  | no_matching_function
  | ambiguous_call
  | use_of_deleted_function
  | inaccessible_member
  | static_assertion_failed (message : string).

Inductive compile (A : Type) :=
  | well_formed (a : A)
  | ill_formed (d : diagnostic).
Arguments well_formed {A} a.
Arguments ill_formed {A} d.

Definition is_well_formed {A} (c : compile A) : bool :=
  match c with
  | well_formed _ => true
  | ill_formed _ => false
  end.

Inductive value_category := Lvalue | Rvalue.

(** The object expression of a member call: its value category (a named
    binding is an lvalue, a temporary an rvalue) and whether it is const. *)
Record receiver := {
  category : value_category;
  const_object : bool;
}.

(** A named mutable object, a named const object, and a temporary. *)
Definition mutable_binding : receiver :=
  {| category := Lvalue; const_object := false |}.

Definition const_binding : receiver :=
  {| category := Lvalue; const_object := true |}.

Definition temporary (c : bool) : receiver :=
  {| category := Rvalue; const_object := c |}.

Inductive call_site := inside_class | outside_class.

#[global] Instance call_site_eq_dec : EqDecision call_site.
Proof. solve_decision. Defined.

Module Resource.

(** *** Memory *)

Module Memory.

Record t := {
  allocator : VmaAllocator;
  allocation : VmaAllocation;
  allocation_info : VmaAllocationInfo;
}.

Module Access.
(** [typedef uint8_t Flags] *)
Abbreviation Flags := Z (only parsing).

Definition Read : Flags := Z.shiftl 1 0.
Definition Write : Flags := Z.shiftl 1 1.

Definition Pointer (Type_ : ctype) (access : Flags) : ctype :=
  add_pointer_t
    (conditional_t
       (negb (0 =? Z.land access Write))
       Type_
       (add_const_t Type_)).
End Access.

(** [class Scope]: the deleter of a mapping. *)
Record Scope := {
  allocator_ : VmaAllocator;
  allocation_ : VmaAllocation;
  access_ : Access.Flags;
}.

(** [Data<Pointer> = Handle<Pointer, Scope>]: the mapped address, typed
    [Pointer], owned together with the scope that unmaps it. *)
Record Data := {
  pointer_type : ctype;
  pointer : Z;
  deleter : Scope;
}.

(** The four member templates named [map]. *)
Inductive map_overload :=
  | map_const_lref      (* map() const &  *)
  | map_lref            (* map() &        *)
  | map_const_rref      (* map() const && = delete *)
  | map_rref.           (* map() && = delete *)

Inductive ref_qualifier := lvalue_ref | rvalue_ref.

Inductive template_argument :=
  | type_argument (t : ctype)
  | value_argument (v : Z).

(** A template parameter is a [typename], with or without a default that
    is computed from the arguments bound before it, or the non-type
    [Access::Flags kAccess]. *)
Inductive template_parameter :=
  | typename_parameter
      (default : option (list template_argument -> option ctype))
  | flags_parameter.

Definition default_pointer_read (bound : list template_argument)
    : option ctype :=
  match bound with
  | [type_argument Type_] => Some (Access.Pointer Type_ Access.Read)
  | _ => None
  end.

Definition default_pointer_access (bound : list template_argument)
    : option ctype :=
  match bound with
  | [type_argument Type_; value_argument kAccess] =>
      Some (Access.Pointer Type_ kAccess)
  | _ => None
  end.

Definition parameters (o : map_overload) : list template_parameter :=
  match o with
  | map_const_lref =>
      [typename_parameter None;
       typename_parameter (Some default_pointer_read)]
  | map_lref =>
      [typename_parameter None;
       flags_parameter;
       typename_parameter (Some default_pointer_access)]
  | map_const_rref =>
      [typename_parameter None; typename_parameter None]
  | map_rref =>
      [typename_parameter None; flags_parameter; typename_parameter None]
  end.

Definition const_qualified (o : map_overload) : bool :=
  match o with
  | map_const_lref | map_const_rref => true
  | map_lref | map_rref => false
  end.

Definition ref (o : map_overload) : ref_qualifier :=
  match o with
  | map_const_lref | map_lref => lvalue_ref
  | map_const_rref | map_rref => rvalue_ref
  end.

Definition deleted (o : map_overload) : bool :=
  match o with
  | map_const_lref | map_lref => false
  | map_const_rref | map_rref => true
  end.

Definition is_private (o : map_overload) : bool :=
  match o with
  | map_const_lref | map_lref => false
  | map_const_rref | map_rref => true
  end.

Definition overloads : list map_overload :=
  [map_const_lref; map_lref; map_const_rref; map_rref].

#[global] Instance map_overload_eq_dec : EqDecision map_overload.
Proof. solve_decision. Defined.

(** A [kAccess] argument is a converted constant expression of type
    [uint8_t]: a value that does not fit is a narrowing conversion. *)
Definition fits_Flags (v : Z) : bool := (0 <=? v) && (v <? 2 ^ 8).

(** Template arguments of a call [map<explicit...>()].  The functions take
    no parameters, so nothing is deduced: a parameter is bound by the
    explicit argument at its position, else by its default, else the
    template is not a candidate. *)
Fixpoint bind (params : list template_parameter)
    (explicit bound : list template_argument)
    : option (list template_argument) :=
  match params with
  | [] =>
      match explicit with
      | [] => Some bound
      | _ :: _ => None
      end
  | p :: params' =>
      match explicit with
      | a :: explicit' =>
          match p, a with
          | typename_parameter _, type_argument _ =>
              bind params' explicit' (bound ++ [a])
          | flags_parameter, value_argument v =>
              if fits_Flags v then bind params' explicit' (bound ++ [a])
              else None
          | _, _ => None
          end
      | [] =>
          match p with
          | typename_parameter (Some default) =>
              match default bound with
              | Some t => bind params' [] (bound ++ [type_argument t])
              | None => None
              end
          | _ => None
          end
      end
  end.

(** Binding of the implicit object parameter to the receiver. *)
Definition binds (o : map_overload) (r : receiver) : bool :=
  match ref o, const_qualified o with
  | lvalue_ref, true => true
  | lvalue_ref, false =>
      match category r with
      | Lvalue => negb (const_object r)
      | Rvalue => false
      end
  | rvalue_ref, c =>
      match category r with
      | Lvalue => false
      | Rvalue => c || negb (const_object r)
      end
  end.

(** Ranking of two viable bindings: an rvalue reference bound to an rvalue
    is better than an lvalue reference, and of two references of one kind
    the one that adds no [const] is better. *)
Definition cost (o : map_overload) (r : receiver) : Z :=
  (match category r, ref o with
   | Rvalue, lvalue_ref => 2
   | _, _ => 0
   end) +
  (if const_qualified o && negb (const_object r) then 1 else 0).

Definition candidates (r : receiver) (explicit : list template_argument)
    : list (map_overload * list template_argument) :=
  omap (fun o =>
          match bind (parameters o) explicit [] with
          | Some args => if binds o r then Some (o, args) else None
          | None => None
          end)
       overloads.

Definition best (r : receiver)
    (cs : list (map_overload * list template_argument))
    : compile (map_overload * list template_argument) :=
  match cs with
  | [] => ill_formed no_matching_function
  | _ :: _ =>
      match List.filter
              (fun c => forallb
                          (fun c' => bool_decide (fst c = fst c')
                                     || (cost (fst c) r <? cost (fst c') r))
                          cs)
              cs with
      | [c] => well_formed c
      | _ => ill_formed ambiguous_call
      end
  end.

Definition static_assert {A} (condition : bool) (message : string)
    (rest : compile A) : compile A :=
  if condition then rest
  else ill_formed (static_assertion_failed message).

(** The access flags the interface names: Read, Write, or both. *)
Definition valid_access (kAccess : Z) : Prop :=
  kAccess = Access.Read \/ kAccess = Access.Write \/
  kAccess = Z.lor Access.Read Access.Write.

Section Mapping.

(** [void* map(const Memory& memory)], declared in the bodies below and
    defined with the allocator. *)
Variable map_memory : t -> Z.

(** [map() const &].  [reinterpret_cast<Pointer>] of the mapped [void*] is
    well formed for every pointer type, which the default of [Pointer]
    always is; what the cast makes of a [Pointer] written out that is no
    pointer is left out here. *)
Definition map_const (this : t) (Pointer : ctype) : compile Data :=
  well_formed
    {| pointer_type := Pointer;
       pointer := map_memory this;
       deleter := {| allocator_ := allocator this;
                     allocation_ := allocation this;
                     access_ := Access.Read |} |}.

(** [map() &], with the same cast. *)
Definition map_mut (this : t) (kAccess : Access.Flags) (Pointer : ctype)
    : compile Data :=
  static_assert
    ((kAccess =? Access.Read) ||
     (kAccess =? Access.Write) ||
     (kAccess =? Z.lor Access.Read Access.Write))
    "Invalid memory access!"
    (well_formed
       {| pointer_type := Pointer;
          pointer := map_memory this;
          deleter := {| allocator_ := allocator this;
                        allocation_ := allocation this;
                        access_ := kAccess |} |}).

Definition instantiate (o : map_overload) (this : t)
    (args : list template_argument) : compile Data :=
  match o, args with
  | map_const_lref, [type_argument _; type_argument Pointer] =>
      map_const this Pointer
  | map_lref,
    [type_argument _; value_argument kAccess; type_argument Pointer] =>
      map_mut this kAccess Pointer
  | _, _ => ill_formed use_of_deleted_function
  end.

(** The call [this.map<explicit...>()] with [this] the receiver [r]. *)
Definition call (site : call_site) (r : receiver) (this : t)
    (explicit : list template_argument) : compile Data :=
  match best r (candidates r explicit) with
  | ill_formed d => ill_formed d
  | well_formed (o, args) =>
      if deleted o then ill_formed use_of_deleted_function
      else if is_private o && bool_decide (site = outside_class)
      then ill_formed inaccessible_member
      else instantiate o this args
  end.

(** [this.map<Type>()] and [this.map<Type, kAccess>()]. *)
Definition map1 (site : call_site) (r : receiver) (this : t)
    (Type_ : ctype) : compile Data :=
  call site r this [type_argument Type_].

Definition map2 (site : call_site) (r : receiver) (this : t)
    (Type_ : ctype) (kAccess : Z) : compile Data :=
  call site r this [type_argument Type_; value_argument kAccess].

End Mapping.

End Memory.

(** *** Buffer *)

Module Buffer.

Record Usage := {
  usage_buffer : VkBufferUsageFlags;
  usage_memory : VmaMemoryUsage;
}.

Record Descriptor := {
  size : VkDeviceSize;
  usage : Usage;
}.

Module Object.
Record t := {
  handle : VkBuffer;
  offset : VkDeviceSize;
  range : VkDeviceSize;
}.

Definition operator_bool (this : t) : bool :=
  negb (VK_NULL_HANDLE =? handle this).
End Object.

Record t := {
  object : Object.t;
  memory : Memory.t;
}.

Definition operator_bool (this : t) : bool :=
  Object.operator_bool (object this).

End Buffer.

(** *** Image *)

Module Image.

Module Sampler.

Record Descriptor := {
  filter : VkFilter;
  mipmap_mode : VkSamplerMipmapMode;
  address_mode : VkSamplerAddressMode;
  border : VkBorderColor;
}.

(** [operator==] on sampler descriptors. *)
Definition operator_eq (_1 _2 : Descriptor) : bool :=
  (filter _1 =? filter _2) &&
  (mipmap_mode _1 =? mipmap_mode _2) &&
  (address_mode _1 =? address_mode _2) &&
  (border _1 =? border _2).

#[global] Instance Descriptor_eq_dec : EqDecision Descriptor.
Proof. solve_decision. Defined.

#[global] Instance Descriptor_countable : Countable Descriptor.
Proof.
  apply (inj_countable'
           (fun d => (filter d, mipmap_mode d, address_mode d, border d))
           (fun '(f, m, a, b) => Build_Descriptor f m a b)).
  by intros [].
Defined.

(** Modelled from the spec: the driver's side of sampler creation
    ([vkCreateSampler], which [Factory::operator()] reaches from
    Resource.cpp).  The driver constructs a sampler object from the
    descriptor on every call; the objects it has constructed are kept
    in creation order, and the handle of an object is its position,
    counted from one, so that no handle is [VK_NULL_HANDLE]. *)
Record Driver := {
  samplers : list Descriptor;
}.

Definition sampler_object (drv : Driver) (h : VkSampler)
    : option Descriptor :=
  if 0 <? h then samplers drv !! Z.to_nat (h - 1) else None.

Definition vkCreateSampler (device : VkDevice) (descriptor : Descriptor)
    (drv : Driver) : VkSampler * Driver :=
  (Z.of_nat (length (samplers drv)) + 1,
   {| samplers := samplers drv ++ [descriptor] |}).

Module Factory.

Record t := {
  device_ : VkDevice;
}.

Section Hasher.
(** [c10::get_hash] at the four enumerants (c10/util/hash.h). *)
Variable get_hash :
  VkFilter -> VkSamplerMipmapMode -> VkSamplerAddressMode ->
  VkBorderColor -> size_t.

Definition Hasher (descriptor : Descriptor) : size_t :=
  get_hash
    (filter descriptor)
    (mipmap_mode descriptor)
    (address_mode descriptor)
    (border descriptor).
End Hasher.

(** Modelled from the spec: [Factory::operator()], declared in the
    header and defined in Resource.cpp: it constructs one sampler,
    on the factory's device, via the driver. *)
Definition operator_call (this : t) (descriptor : Descriptor)
    (drv : Driver) : VkSampler * Driver :=
  vkCreateSampler (device_ this) descriptor drv.

End Factory.

(** Modelled from the spec: [api::Cache<Factory>] (Cache.h), a mapping
    from descriptor to sampler: given a descriptor, return the existing
    sampler if one with an equal descriptor exists; otherwise construct
    one via the driver, insert it, and return it. *)
Module Cache.

Record t := {
  cache_ : gmap Descriptor VkSampler;
  factory_ : Factory.t;
}.

Definition make (factory : Factory.t) : t :=
  {| cache_ := ∅; factory_ := factory |}.

Definition retrieve (descriptor : Descriptor) (this : t) (drv : Driver)
    : VkSampler * t * Driver :=
  match cache_ this !! descriptor with
  | Some h => (h, this, drv)
  | None =>
      let '(h, drv') :=
        Factory.operator_call (factory_ this) descriptor drv in
      (h,
       {| cache_ := <[descriptor := h]> (cache_ this);
          factory_ := factory_ this |},
       drv')
  end.

(** The number of distinct samplers the cache holds. *)
Definition count (this : t) : nat := size (cache_ this).

(** Every cached handle is a sampler object of the driver, made
    from the descriptor it is cached under. *)
Definition consistent (this : t) (drv : Driver) : Prop :=
  forall descriptor h,
    cache_ this !! descriptor = Some h ->
    sampler_object drv h = Some descriptor.

(** The states a cache and its driver go through: a new cache on any
    driver, then retrievals, and samplers that other clients of the
    driver create in between. *)
Inductive reachable : t -> Driver -> Prop :=
  | reachable_make factory drv :
      reachable (make factory) drv
  | reachable_retrieve descriptor this drv h this' drv' :
      reachable this drv ->
      retrieve descriptor this drv = (h, this', drv') ->
      reachable this' drv'
  | reachable_create device descriptor this drv h drv' :
      reachable this drv ->
      vkCreateSampler device descriptor drv = (h, drv') ->
      reachable this drv'.

End Cache.

Record t := {
  cache : Cache.t;
}.

End Sampler.

Record Usage := {
  usage_image : VkImageUsageFlags;
  usage_memory : VmaMemoryUsage;
}.

Record View := {
  view_type : VkImageViewType;
  view_format : VkFormat;
}.

Record Descriptor := {
  type : VkImageType;
  format : VkFormat;
  extent : VkExtent3D;
  usage : Usage;
  view_ : View;
  sampler_ : Sampler.Descriptor;
}.

Module Object.
Record t := {
  handle : VkImage;
  layout : VkImageLayout;
  view : VkImageView;
  sampler : VkSampler;
}.

Definition operator_bool (this : t) : bool :=
  negb (VK_NULL_HANDLE =? handle this).
End Object.

Record t := {
  object : Object.t;
  memory : Memory.t;
}.

Definition operator_bool (this : t) : bool :=
  Object.operator_bool (object this).

End Image.

(** *** Fence *)

Module Fence.

Record t := {
  device : VkDevice;
  handle : VkFence;
}.

Definition operator_bool (this : t) : bool :=
  negb (VK_NULL_HANDLE =? device this) &&
  negb (VK_NULL_HANDLE =? handle this).

(** [wait(uint64_t timeout_nanoseconds = UINT64_MAX)]: the value of the
    parameter, for a call with or without the argument.  An argument is
    converted to [uint64_t], that is, taken modulo [2 ^ 64]. *)
Definition timeout_nanoseconds (argument : option Z) : Z :=
  match argument with
  | Some t => t mod 2 ^ 64
  | None => UINT64_MAX
  end.

Inductive wait_result := signaled | timed_out.

(** Modelled from the spec: the body of [Fence::wait] (Resource.cpp), a
    blocking wait that blocks the calling thread for up to the timeout,
    waiting on the device to signal completion, and that is abandoned on
    timeout.  The device is represented by [signal_after], the time in
    nanoseconds from the call at which it signals the fence, if it ever
    does; the result is paired with the time the caller was blocked. *)
Definition wait (this : t) (argument : option Z) (signal_after : option Z)
    : wait_result * Z :=
  let timeout := timeout_nanoseconds argument in
  match signal_after with
  | Some s => if s <=? timeout then (signaled, s) else (timed_out, timeout)
  | None => (timed_out, timeout)
  end.

End Fence.

End Resource.

Import Resource.

(** * Properties *)

(** ** Sampler descriptors: equality and hash *)

Section Descriptor_equality.

Import Image.Sampler.

Lemma operator_eq_fields (d1 d2 : Descriptor) :
  operator_eq d1 d2 = true <->
  filter d1 = filter d2 /\ mipmap_mode d1 = mipmap_mode d2 /\
  address_mode d1 = address_mode d2 /\ border d1 = border d2.
Proof.
  unfold operator_eq.
  rewrite !andb_true_iff, !Z.eqb_eq. tauto.
Qed.

Lemma operator_eq_true (d1 d2 : Descriptor) :
  operator_eq d1 d2 = true <-> d1 = d2.
Proof.
  rewrite operator_eq_fields. split.
  - destruct d1, d2; simpl. intros (-> & -> & -> & ->). reflexivity.
  - intros ->. repeat split.
Qed.

Lemma operator_eq_false (d1 d2 : Descriptor) :
  operator_eq d1 d2 = false <-> d1 <> d2.
Proof.
  rewrite <- operator_eq_true. destruct (operator_eq d1 d2); split; congruence.
Qed.

(** The key equality of the cache's map is the descriptors' [operator==]. *)
Lemma operator_eq_decide (d1 d2 : Descriptor) :
  operator_eq d1 d2 = bool_decide (d1 = d2).
Proof.
  case_bool_decide as H.
  - by apply operator_eq_true.
  - by apply operator_eq_false.
Qed.

End Descriptor_equality.

(** C10. [operator==] on sampler descriptors is an equivalence relation:
    it is reflexive, symmetric and transitive. *)
Theorem operator_eq_equivalence (d d1 d2 d3 : Image.Sampler.Descriptor) :
  Image.Sampler.operator_eq d d = true /\
  (Image.Sampler.operator_eq d1 d2 = true ->
   Image.Sampler.operator_eq d2 d1 = true) /\
  (Image.Sampler.operator_eq d1 d2 = true ->
   Image.Sampler.operator_eq d2 d3 = true ->
   Image.Sampler.operator_eq d1 d3 = true).
Proof.
  rewrite !operator_eq_true. split; [reflexivity|].
  split; congruence.
Qed.

Lemma operator_eq_equivalence_witness :
  let d := Image.Sampler.Build_Descriptor 1 0 2 3 in
  Image.Sampler.operator_eq d d = true /\
  Image.Sampler.operator_eq d d = true /\
  Image.Sampler.operator_eq d d = true.
Proof.
  intros d.
  destruct (operator_eq_equivalence d d d d) as (Hrefl & Hsym & Htrans).
  split; [exact Hrefl|].
  split; [apply Hsym; reflexivity|].
  apply Htrans; reflexivity.
Defined.

(** C2. The hash of a sampler descriptor is [get_hash] of its four fields,
    so descriptors that compare equal under [operator==] hash equally,
    whatever [get_hash] computes. *)
Theorem Hasher_consistent
    (get_hash : Z -> Z -> Z -> Z -> Z) (d1 d2 : Image.Sampler.Descriptor) :
  Image.Sampler.operator_eq d1 d2 = true ->
  Image.Sampler.Factory.Hasher get_hash d1 =
  Image.Sampler.Factory.Hasher get_hash d2 /\
  Image.Sampler.Factory.Hasher get_hash d1 =
  get_hash (Image.Sampler.filter d1) (Image.Sampler.mipmap_mode d1)
           (Image.Sampler.address_mode d1) (Image.Sampler.border d1).
Proof.
  intros H%operator_eq_fields. destruct H as (Hf & Hm & Ha & Hb).
  unfold Image.Sampler.Factory.Hasher.
  rewrite Hf, Hm, Ha, Hb. split; reflexivity.
Qed.

Lemma Hasher_consistent_witness :
  let get_hash := fun f m a b => Z.lxor f (Z.lxor (m * 31) (Z.lxor (a * 961) (b * 29791))) in
  let d1 := Image.Sampler.Build_Descriptor 1 0 2 3 in
  let d2 := Image.Sampler.Build_Descriptor (0 + 1) 0 (1 + 1) 3 in
  Image.Sampler.Factory.Hasher get_hash d1 =
  Image.Sampler.Factory.Hasher get_hash d2.
Proof.
  intros get_hash d1 d2.
  apply (Hasher_consistent get_hash d1 d2). reflexivity.
Defined.

(** ** Validity of buffers, images and fences *)

(** C6. A buffer is valid iff the handle of its object is not
    [VK_NULL_HANDLE], and so is an image: the image's layout, view, sampler
    and memory have no part in it. *)
Theorem Buffer_Image_valid (b : Buffer.t) (i : Image.t) :
  (Buffer.operator_bool b = true <->
   Buffer.Object.handle (Buffer.object b) <> VK_NULL_HANDLE) /\
  Buffer.operator_bool b = Buffer.Object.operator_bool (Buffer.object b) /\
  (Image.operator_bool i = true <->
   Image.Object.handle (Image.object i) <> VK_NULL_HANDLE) /\
  Image.operator_bool i = Image.Object.operator_bool (Image.object i) /\
  (forall layout view sampler memory,
     Image.operator_bool
       {| Image.object :=
            {| Image.Object.handle := Image.Object.handle (Image.object i);
               Image.Object.layout := layout;
               Image.Object.view := view;
               Image.Object.sampler := sampler |};
          Image.memory := memory |}
     = Image.operator_bool i).
Proof.
  unfold Buffer.operator_bool, Buffer.Object.operator_bool,
    Image.operator_bool, Image.Object.operator_bool.
  cbn [Image.object Image.Object.handle].
  rewrite !negb_true_iff, !Z.eqb_neq.
  repeat split; congruence.
Qed.

(** C7. A fence is valid iff neither its device nor its handle is
    [VK_NULL_HANDLE]; with either of them null it is invalid. *)
Theorem Fence_valid (f : Fence.t) :
  (Fence.operator_bool f = true <->
   Fence.device f <> VK_NULL_HANDLE /\ Fence.handle f <> VK_NULL_HANDLE) /\
  (Fence.device f = VK_NULL_HANDLE \/ Fence.handle f = VK_NULL_HANDLE ->
   Fence.operator_bool f = false).
Proof.
  unfold Fence.operator_bool.
  destruct (Z.eqb_spec VK_NULL_HANDLE (Fence.device f)) as [Hd | Hd],
    (Z.eqb_spec VK_NULL_HANDLE (Fence.handle f)) as [Hh | Hh]; simpl;
    intuition congruence.
Qed.

Lemma Fence_valid_witness :
  Fence.operator_bool {| Fence.device := 7; Fence.handle := VK_NULL_HANDLE |}
  = false.
Proof.
  apply (Fence_valid {| Fence.device := 7; Fence.handle := VK_NULL_HANDLE |}).
  right. reflexivity.
Defined.

(** ** Scoped memory mapping *)

Section Map_calls.

Variable map_memory : Memory.t -> Z.

Import Memory.

(** [map<Type>()] finds one candidate whatever the receiver is: the
    [const &] template, the only one whose [Pointer] has a default. *)
Lemma candidates_map1 (r : receiver) (Type_ : ctype) :
  candidates r [type_argument Type_] =
  [(map_const_lref,
    [type_argument Type_;
     type_argument (Access.Pointer Type_ Access.Read)])].
Proof. destruct r as [[] []]; reflexivity. Qed.

Lemma map1_map_const (site : call_site) (r : receiver) (this : t)
    (Type_ : ctype) :
  map1 map_memory site r this Type_ =
  map_const map_memory this (Access.Pointer Type_ Access.Read).
Proof.
  unfold map1, call. rewrite candidates_map1. reflexivity.
Qed.

(** [map<Type, kAccess>()] finds the [&] template alone, and only for a
    receiver that is a mutable lvalue and a [kAccess] that fits. *)
Lemma candidates_map2 (r : receiver) (Type_ : ctype) (kAccess : Z) :
  candidates r [type_argument Type_; value_argument kAccess] =
  if fits_Flags kAccess && binds map_lref r
  then [(map_lref,
         [type_argument Type_; value_argument kAccess;
          type_argument (Access.Pointer Type_ kAccess)])]
  else [].
Proof.
  unfold candidates, overloads.
  cbn [omap list_omap parameters bind].
  destruct (fits_Flags kAccess); [|reflexivity].
  destruct r as [[] []]; reflexivity.
Qed.

Lemma map2_map_mut (site : call_site) (this : t) (Type_ : ctype)
    (kAccess : Z) :
  fits_Flags kAccess = true ->
  map2 map_memory site mutable_binding this Type_ kAccess =
  map_mut map_memory this kAccess (Access.Pointer Type_ kAccess).
Proof.
  intros Hfit. unfold map2, call.
  rewrite candidates_map2, Hfit. reflexivity.
Qed.

Lemma map2_no_match (site : call_site) (r : receiver) (this : t)
    (Type_ : ctype) (kAccess : Z) :
  fits_Flags kAccess && binds map_lref r = false ->
  map2 map_memory site r this Type_ kAccess =
  ill_formed no_matching_function.
Proof.
  intros Hno. unfold map2, call.
  rewrite candidates_map2, Hno. reflexivity.
Qed.

Lemma static_assert_condition (kAccess : Z) :
  (kAccess =? Access.Read) || (kAccess =? Access.Write) ||
  (kAccess =? Z.lor Access.Read Access.Write) = true <->
  valid_access kAccess.
Proof.
  unfold valid_access. rewrite !orb_true_iff, !Z.eqb_eq. tauto.
Qed.

Lemma valid_access_fits (kAccess : Z) :
  valid_access kAccess -> fits_Flags kAccess = true.
Proof. intros [-> | [-> | ->]]; reflexivity. Qed.

Lemma Write_bit (kAccess : Z) :
  Z.land kAccess Access.Write <> 0 <-> Z.testbit kAccess 1 = true.
Proof.
  change Access.Write with (2 ^ 1)%Z.
  split.
  - intros H. destruct (Z.testbit kAccess 1) eqn:Hb; [reflexivity|].
    exfalso. apply H. apply Z.bits_inj'. intros n Hn.
    rewrite Z.land_spec, Z.bits_0, Z.pow2_bits_eqb by lia.
    destruct (Z.eqb_spec 1 n) as [<- | _]; [by rewrite Hb|].
    apply andb_false_r.
  - intros Hb H.
    assert (Z.testbit (Z.land kAccess (2 ^ 1)) 1 = true) as Hbit.
    { rewrite Z.land_spec, Hb, Z.pow2_bits_true by lia. reflexivity. }
    rewrite H in Hbit. discriminate.
Qed.

Lemma Pointer_cases (Type_ : ctype) (kAccess : Z) :
  Access.Pointer Type_ kAccess =
  if Z.testbit kAccess 1 then add_pointer_t Type_
  else add_pointer_t (add_const_t Type_).
Proof.
  unfold Access.Pointer, conditional_t.
  destruct (Z.eqb_spec 0 (Z.land kAccess Access.Write)) as [H0 | Hn];
    cbn [negb].
  - destruct (Z.testbit kAccess 1) eqn:Hb; [|reflexivity].
    apply Write_bit in Hb. congruence.
  - assert (Z.testbit kAccess 1 = true) as -> by (apply Write_bit; congruence).
    reflexivity.
Qed.

End Map_calls.

(** C3, as amended.  For an element type [T] that is an object type and is
    not const: [map<T>()] on a const memory yields [const T*], which is not
    writable, under a scope with Read access; [map<T, kAccess>()] on a
    mutable memory, for Read, Write or both, yields [Pointer<T, kAccess>]
    under a scope with [kAccess]; that type is [T*], writable, exactly when
    the Write bit of [kAccess] is set, and [const T*] otherwise, Read alone
    giving [const T*]. *)
Theorem map_pointer_constness
    (map_memory : Memory.t -> Z) (site : call_site) (this : Memory.t)
    (T : ctype) (kAccess : Z) :
  is_object_type T = true ->
  is_const T = false ->
  Memory.map1 map_memory site const_binding this T =
    well_formed
      {| Memory.pointer_type := PointerTo false (add_const_t T);
         Memory.pointer := map_memory this;
         Memory.deleter :=
           {| Memory.allocator_ := Memory.allocator this;
              Memory.allocation_ := Memory.allocation this;
              Memory.access_ := Memory.Access.Read |} |} /\
  is_mutable_pointer (PointerTo false (add_const_t T)) = false /\
  (Memory.valid_access kAccess ->
   Memory.map2 map_memory site mutable_binding this T kAccess =
     well_formed
       {| Memory.pointer_type := Memory.Access.Pointer T kAccess;
          Memory.pointer := map_memory this;
          Memory.deleter :=
            {| Memory.allocator_ := Memory.allocator this;
               Memory.allocation_ := Memory.allocation this;
               Memory.access_ := kAccess |} |}) /\
  (Z.land kAccess Memory.Access.Write <> 0 ->
   Memory.Access.Pointer T kAccess = PointerTo false T) /\
  (Z.land kAccess Memory.Access.Write = 0 ->
   Memory.Access.Pointer T kAccess = PointerTo false (add_const_t T)) /\
  Memory.Access.Pointer T Memory.Access.Read =
    PointerTo false (add_const_t T) /\
  (is_mutable_pointer (Memory.Access.Pointer T kAccess) = true <->
   Z.land kAccess Memory.Access.Write <> 0) /\
  (Memory.Access.Pointer T kAccess = PointerTo false T <->
   Z.land kAccess Memory.Access.Write <> 0).
Proof.
  intros Hobject Hconst.
  assert (add_pointer_t T = PointerTo false T) as Hpointer
    by (by destruct T).
  assert (add_pointer_t (add_const_t T) = PointerTo false (add_const_t T))
    as Hconst_pointer by (by destruct T).
  assert (is_mutable_pointer (PointerTo false (add_const_t T)) = false)
    as Hread_only by (by destruct T).
  assert (is_mutable_pointer (PointerTo false T) = true) as Hwritable.
  { cbn. by rewrite Hobject, Hconst. }
  assert (PointerTo false (add_const_t T) <> PointerTo false T) as Hdistinct.
  { intros [= Heq]. rewrite <- Heq in Hconst. by destruct T. }
  split.
  { rewrite map1_map_const, Pointer_cases.
    change (Z.testbit Memory.Access.Read 1) with false. cbv beta iota.
    rewrite Hconst_pointer. reflexivity. }
  split; [exact Hread_only|].
  split.
  { intros Hvalid.
    rewrite map2_map_mut by (by apply valid_access_fits).
    unfold Memory.map_mut, Memory.static_assert.
    apply static_assert_condition in Hvalid. rewrite Hvalid. reflexivity. }
  rewrite !Pointer_cases, Hpointer, Hconst_pointer, Write_bit.
  change (Z.testbit Memory.Access.Read 1) with false. cbv beta iota.
  split; [by intros ->|].
  split.
  { intros H0. destruct (Z.testbit kAccess 1) eqn:Hb; [|reflexivity].
    exfalso. revert H0. by apply Write_bit. }
  split; [reflexivity|].
  destruct (Z.testbit kAccess 1).
  - rewrite Hwritable. done.
  - rewrite Hread_only. split; split; (discriminate || congruence).
Qed.

Lemma map_pointer_constness_witness :
  let float := Named false "float" in
  let mapped := fun m => pMappedData (Memory.allocation_info m) in
  let this :=
    {| Memory.allocator := 1; Memory.allocation := 2;
       Memory.allocation_info := Build_VmaAllocationInfo 0 0 0 64 4096 |} in
  Memory.pointer_type <$>
    (match Memory.map2 mapped outside_class mutable_binding this
             float Memory.Access.Write with
     | well_formed data => Some data
     | ill_formed _ => None
     end) = Some (PointerTo false float) /\
  Memory.Access.Pointer float Memory.Access.Write = PointerTo false float /\
  Memory.Access.Pointer float 0 = PointerTo false (add_const_t float) /\
  is_mutable_pointer (Memory.Access.Pointer float Memory.Access.Write) = true.
Proof.
  intros float mapped this.
  destruct (map_pointer_constness mapped outside_class this float
              Memory.Access.Write eq_refl eq_refl)
    as (_ & _ & Hmap & Hset & _ & _ & Hmut & _).
  destruct (map_pointer_constness mapped outside_class this float
              0 eq_refl eq_refl) as (_ & _ & _ & _ & Hclear & _).
  split.
  { rewrite Hmap; [reflexivity|]. right; left; reflexivity. }
  split; [apply Hset; discriminate|].
  split; [apply Hclear; reflexivity|].
  apply Hmut. discriminate.
Defined.

(** C3 as stated, for every [T], fails on two kinds of element type.  With
    [T = const float] and Write access the Write bit is set and the pointer
    is [const float*], not writable.  With [T = float&] the call
    [map<float&>()] on a const memory returns [float*], writable, under a
    Read scope. *)
Lemma map_pointer_constness_counterexample :
  let mapped := fun m => pMappedData (Memory.allocation_info m) in
  let this :=
    {| Memory.allocator := 1; Memory.allocation := 2;
       Memory.allocation_info := Build_VmaAllocationInfo 0 0 0 64 4096 |} in
  ~ (is_mutable_pointer
       (Memory.Access.Pointer (Named true "float") Memory.Access.Write) = true
     <-> Z.land Memory.Access.Write Memory.Access.Write <> 0) /\
  Memory.map2 mapped outside_class mutable_binding this (Named true "float")
    Memory.Access.Write =
    well_formed
      {| Memory.pointer_type := PointerTo false (Named true "float");
         Memory.pointer := 4096;
         Memory.deleter :=
           {| Memory.allocator_ := 1; Memory.allocation_ := 2;
              Memory.access_ := Memory.Access.Write |} |} /\
  Memory.map1 mapped outside_class const_binding this
    (LvalueRef (Named false "float")) =
    well_formed
      {| Memory.pointer_type := PointerTo false (Named false "float");
         Memory.pointer := 4096;
         Memory.deleter :=
           {| Memory.allocator_ := 1; Memory.allocation_ := 2;
              Memory.access_ := Memory.Access.Read |} |} /\
  ~ (is_mutable_pointer (PointerTo false (Named false "float")) = false).
Proof.
  intros mapped this.
  split; [|split; [reflexivity | split; [reflexivity | discriminate]]].
  intros [_ Himp].
  assert (is_mutable_pointer
            (Memory.Access.Pointer (Named true "float") Memory.Access.Write)
          = true) as Hmut by (apply Himp; discriminate).
  discriminate Hmut.
Qed.

(** C4. [map<T, kAccess>()] on a mutable memory is accepted exactly when
    [kAccess] is Read, Write or Read|Write.  Every other value is rejected
    in translation: a value of [Flags] by the static assertion, with its
    message, and a value that does not fit [Flags] for want of a matching
    function.  The values are 1, 2 and 3. *)
Theorem map_access_static_assert
    (map_memory : Memory.t -> Z) (site : call_site) (this : Memory.t)
    (T : ctype) (kAccess : Z) :
  (is_well_formed
     (Memory.map2 map_memory site mutable_binding this T kAccess) = true <->
   Memory.valid_access kAccess) /\
  (0 <= kAccess < 2 ^ 8 -> ~ Memory.valid_access kAccess ->
   Memory.map2 map_memory site mutable_binding this T kAccess =
   ill_formed (static_assertion_failed "Invalid memory access!")) /\
  (~ Memory.valid_access kAccess ->
   exists d,
     Memory.map2 map_memory site mutable_binding this T kAccess =
     ill_formed d) /\
  (Memory.valid_access kAccess <-> kAccess = 1 \/ kAccess = 2 \/ kAccess = 3).
Proof.
  assert (forall k, 0 <= k < 2 ^ 8 -> ~ Memory.valid_access k ->
            Memory.map2 map_memory site mutable_binding this T k =
            ill_formed (static_assertion_failed "Invalid memory access!"))
    as Hassert.
  { intros k Hk Hinvalid.
    rewrite map2_map_mut by (unfold Memory.fits_Flags; lia).
    unfold Memory.map_mut, Memory.static_assert.
    rewrite <- static_assert_condition in Hinvalid.
    apply not_true_is_false in Hinvalid. rewrite Hinvalid. reflexivity. }
  assert (~ Memory.valid_access kAccess ->
          exists d,
            Memory.map2 map_memory site mutable_binding this T kAccess =
            ill_formed d) as Hrejected.
  { intros Hinvalid.
    destruct (Memory.fits_Flags kAccess) eqn:Hfit.
    - eexists. apply Hassert; [|assumption].
      unfold Memory.fits_Flags in Hfit. lia.
    - eexists. apply map2_no_match. by rewrite Hfit. }
  split; [|split; [apply Hassert | split; [apply Hrejected | reflexivity]]].
  split.
  - intros Hwf.
    destruct (decide (Memory.valid_access kAccess)) as [|Hinvalid];
      [assumption|].
    destruct (Hrejected Hinvalid) as [d Hd]. rewrite Hd in Hwf. discriminate.
  - intros Hvalid.
    rewrite map2_map_mut by (by apply valid_access_fits).
    unfold Memory.map_mut, Memory.static_assert.
    apply static_assert_condition in Hvalid. rewrite Hvalid. reflexivity.
Qed.

Lemma map_access_static_assert_witness :
  let mapped := fun m => pMappedData (Memory.allocation_info m) in
  let this :=
    {| Memory.allocator := 1; Memory.allocation := 2;
       Memory.allocation_info := Build_VmaAllocationInfo 0 0 0 64 4096 |} in
  Memory.map2 mapped outside_class mutable_binding this
    (Named false "float") 0 =
  ill_formed (static_assertion_failed "Invalid memory access!").
Proof.
  intros mapped this.
  apply (map_access_static_assert mapped outside_class this
           (Named false "float") 0).
  - lia.
  - intros [H | [H | H]]; discriminate H.
Defined.

(** C5. A temporary is not refused by [map<T>()]: the call on an rvalue
    memory, const or not, is well formed and runs the [const &] overload,
    because the deleted [const &&] template has no default for [Pointer]
    and so is never a candidate.  [map<T, kAccess>()] on a temporary is ill
    formed, for want of a matching function. *)
Theorem map_on_temporary
    (map_memory : Memory.t -> Z) (site : call_site) (this : Memory.t)
    (T : ctype) (kAccess : Z) (c : bool) :
  Memory.map1 map_memory site (temporary c) this T =
    well_formed
      {| Memory.pointer_type := add_pointer_t (add_const_t T);
         Memory.pointer := map_memory this;
         Memory.deleter :=
           {| Memory.allocator_ := Memory.allocator this;
              Memory.allocation_ := Memory.allocation this;
              Memory.access_ := Memory.Access.Read |} |} /\
  Memory.map2 map_memory site (temporary c) this T kAccess =
    ill_formed no_matching_function.
Proof.
  split.
  - apply map1_map_const.
  - apply map2_no_match. apply andb_false_r.
Qed.

(** The call [Memory{...}.map<float>()] from outside the class, evaluated:
    overload resolution settles on [map() const &] and the temporary is
    mapped for reading. *)
Example map_float_on_temporary :
  let mapped := fun m => pMappedData (Memory.allocation_info m) in
  let this :=
    {| Memory.allocator := 1; Memory.allocation := 2;
       Memory.allocation_info := Build_VmaAllocationInfo 0 0 0 64 4096 |} in
  Memory.candidates (temporary false)
    [Memory.type_argument (Named false "float")] =
    [(Memory.map_const_lref,
      [Memory.type_argument (Named false "float");
       Memory.type_argument (PointerTo false (Named true "float"))])] /\
  Memory.map1 mapped outside_class (temporary false) this
    (Named false "float") =
  well_formed
    {| Memory.pointer_type := PointerTo false (Named true "float");
       Memory.pointer := 4096;
       Memory.deleter :=
         {| Memory.allocator_ := 1;
            Memory.allocation_ := 2;
            Memory.access_ := 1 |} |}.
Proof. split; reflexivity. Qed.

(** With [Pointer] written out the deleted template does take part, and the
    call on a temporary is refused. *)
Example map_explicit_pointer_on_temporary :
  let mapped := fun m => pMappedData (Memory.allocation_info m) in
  let this :=
    {| Memory.allocator := 1; Memory.allocation := 2;
       Memory.allocation_info := Build_VmaAllocationInfo 0 0 0 64 4096 |} in
  Memory.call mapped outside_class (temporary false) this
    [Memory.type_argument (Named false "float");
     Memory.type_argument (PointerTo false (Named true "float"))] =
  ill_formed use_of_deleted_function.
Proof. reflexivity. Qed.

(** ** The sampler cache *)

Section Sampler_cache.

Import Image.Sampler.

Lemma sampler_object_Some (drv : Driver) (h : Z) (d : Descriptor) :
  sampler_object drv h = Some d <->
  0 < h /\ samplers drv !! Z.to_nat (h - 1) = Some d.
Proof.
  unfold sampler_object. destruct (Z.ltb_spec 0 h); split.
  - by intros ->.
  - by intros [_ ->].
  - discriminate.
  - intros [? _]. lia.
Qed.

(** Objects the driver holds stay as they are when it creates another. *)
Lemma vkCreateSampler_keeps device d drv h d' :
  sampler_object drv h = Some d' ->
  sampler_object (vkCreateSampler device d drv).2 h = Some d'.
Proof.
  rewrite !sampler_object_Some. intros [Hpos Hlook]. split; [assumption|].
  cbn. by apply lookup_app_l_Some.
Qed.

(** The handle the driver returns is the new object's. *)
Lemma vkCreateSampler_new device d drv :
  sampler_object (vkCreateSampler device d drv).2
                 (vkCreateSampler device d drv).1 = Some d.
Proof.
  apply sampler_object_Some. cbn. split; [lia|].
  replace (Z.to_nat (Z.of_nat (length (samplers drv)) + 1 - 1))
    with (length (samplers drv)) by lia.
  apply list_lookup_middle. reflexivity.
Qed.

(** The new handle is none of the old objects'. *)
Lemma vkCreateSampler_fresh device d drv :
  sampler_object drv (vkCreateSampler device d drv).1 = None.
Proof.
  destruct (sampler_object drv _) as [d'|] eqn:Hold; [|reflexivity].
  apply sampler_object_Some in Hold as [_ Hlook].
  apply lookup_lt_Some in Hlook. cbn in Hlook. lia.
Qed.

Lemma retrieve_hit d c drv h :
  Cache.cache_ c !! d = Some h ->
  Cache.retrieve d c drv = (h, c, drv).
Proof. intros Hhit. unfold Cache.retrieve. by rewrite Hhit. Qed.

Lemma retrieve_miss d c drv :
  Cache.cache_ c !! d = None ->
  Cache.retrieve d c drv =
  ((vkCreateSampler (Factory.device_ (Cache.factory_ c)) d drv).1,
   {| Cache.cache_ :=
        <[d := (vkCreateSampler (Factory.device_ (Cache.factory_ c))
                                d drv).1]> (Cache.cache_ c);
      Cache.factory_ := Cache.factory_ c |},
   (vkCreateSampler (Factory.device_ (Cache.factory_ c)) d drv).2).
Proof. intros Hmiss. unfold Cache.retrieve. by rewrite Hmiss. Qed.

(** After a retrieval the descriptor is cached under the handle returned. *)
Lemma retrieve_cached d c drv :
  Cache.cache_ (Cache.retrieve d c drv).1.2 !! d =
  Some (Cache.retrieve d c drv).1.1.
Proof.
  destruct (Cache.cache_ c !! d) as [h|] eqn:Hlook.
  - by rewrite (retrieve_hit _ _ _ _ Hlook).
  - rewrite (retrieve_miss _ _ _ Hlook). cbn. apply lookup_insert_eq.
Qed.

Lemma retrieve_keeps d c drv h d' :
  sampler_object drv h = Some d' ->
  sampler_object (Cache.retrieve d c drv).2 h = Some d'.
Proof.
  intros Hobj. destruct (Cache.cache_ c !! d) as [h0|] eqn:Hlook.
  - by rewrite (retrieve_hit _ _ _ _ Hlook).
  - rewrite (retrieve_miss _ _ _ Hlook). cbn [snd].
    by apply vkCreateSampler_keeps.
Qed.

Lemma consistent_make factory drv : Cache.consistent (Cache.make factory) drv.
Proof. intros d h. cbn. by rewrite lookup_empty. Qed.

Lemma consistent_create device d c drv :
  Cache.consistent c drv ->
  Cache.consistent c (vkCreateSampler device d drv).2.
Proof.
  intros Hc d' h Hlook. apply vkCreateSampler_keeps. by apply Hc.
Qed.

Lemma consistent_retrieve d c drv :
  Cache.consistent c drv ->
  Cache.consistent (Cache.retrieve d c drv).1.2 (Cache.retrieve d c drv).2.
Proof.
  intros Hc. destruct (Cache.cache_ c !! d) as [h0|] eqn:Hlook.
  - by rewrite (retrieve_hit _ _ _ _ Hlook).
  - rewrite (retrieve_miss _ _ _ Hlook). cbn [fst snd].
    intros d' h. cbn [Cache.cache_]. rewrite lookup_insert.
    case_decide as Heq.
    + intros [= <-]. subst d'. apply vkCreateSampler_new.
    + intros Hold. apply vkCreateSampler_keeps. by apply Hc.
Qed.

(** The invariant of the cache, by induction on how the state was reached. *)
Lemma reachable_consistent c drv :
  Cache.reachable c drv -> Cache.consistent c drv.
Proof.
  induction 1 as [factory drv
                 | d c drv h c' drv' _ IH Hret
                 | device d c drv h drv' _ IH Hcreate].
  - apply consistent_make.
  - pose proof (consistent_retrieve d c drv IH) as Hc.
    by rewrite Hret in Hc.
  - pose proof (consistent_create device d c drv IH) as Hc.
    by rewrite Hcreate in Hc.
Qed.

End Sampler_cache.

(** C1. For descriptors that compare equal under [operator==], a request
    for the first and then for the second from one cache returns the same
    sampler handle, hence the same sampler object; the second request
    leaves the cache and the driver as they were, and the number of
    samplers in the cache grows by at most one over the two. *)
Theorem Cache_retrieve_equal
    (d1 d2 : Image.Sampler.Descriptor) (c : Image.Sampler.Cache.t)
    (drv : Image.Sampler.Driver) :
  Image.Sampler.operator_eq d1 d2 = true ->
  let r1 := Image.Sampler.Cache.retrieve d1 c drv in
  let r2 := Image.Sampler.Cache.retrieve d2 r1.1.2 r1.2 in
  r2.1.1 = r1.1.1 /\
  Image.Sampler.sampler_object r2.2 r2.1.1 =
    Image.Sampler.sampler_object r2.2 r1.1.1 /\
  r2.1.2 = r1.1.2 /\ r2.2 = r1.2 /\
  (Image.Sampler.Cache.count c <= Image.Sampler.Cache.count r2.1.2 <=
   Image.Sampler.Cache.count c + 1)%nat.
Proof.
  intros Heq%operator_eq_true r1 r2. subst d2.
  assert (r2 = (r1.1.1, r1.1.2, r1.2)) as Hr2.
  { apply retrieve_hit, retrieve_cached. }
  rewrite Hr2. cbn [fst snd].
  repeat (split; [reflexivity|]).
  subst r1. unfold Image.Sampler.Cache.count.
  destruct (Image.Sampler.Cache.cache_ c !! d1) as [h|] eqn:Hlook.
  - rewrite (retrieve_hit _ _ _ _ Hlook). cbn [fst snd]. lia.
  - rewrite (retrieve_miss _ _ _ Hlook).
    cbn [fst snd Image.Sampler.Cache.cache_].
    rewrite map_size_insert_None by assumption. lia.
Qed.

Lemma Cache_retrieve_equal_witness :
  let d1 := Image.Sampler.Build_Descriptor 1 0 2 3 in
  let d2 := Image.Sampler.Build_Descriptor (0 + 1) 0 (1 + 1) 3 in
  let c := Image.Sampler.Cache.make {| Image.Sampler.Factory.device_ := 5 |} in
  let drv := {| Image.Sampler.samplers := [] |} in
  let r1 := Image.Sampler.Cache.retrieve d1 c drv in
  let r2 := Image.Sampler.Cache.retrieve d2 r1.1.2 r1.2 in
  r2.1.1 = r1.1.1.
Proof.
  intros d1 d2 c drv.
  apply (Cache_retrieve_equal d1 d2 c drv). reflexivity.
Defined.

(** C8. Descriptors that differ in one of their four fields compare
    unequal, and in a cache built by creation and retrievals a request for
    each returns two distinct sampler handles, each the handle of a
    sampler object made from its own descriptor. *)
Theorem Cache_retrieve_distinct
    (d1 d2 : Image.Sampler.Descriptor) (c : Image.Sampler.Cache.t)
    (drv : Image.Sampler.Driver) :
  Image.Sampler.Cache.reachable c drv ->
  (Image.Sampler.filter d1 <> Image.Sampler.filter d2 \/
   Image.Sampler.mipmap_mode d1 <> Image.Sampler.mipmap_mode d2 \/
   Image.Sampler.address_mode d1 <> Image.Sampler.address_mode d2 \/
   Image.Sampler.border d1 <> Image.Sampler.border d2) ->
  let r1 := Image.Sampler.Cache.retrieve d1 c drv in
  let r2 := Image.Sampler.Cache.retrieve d2 r1.1.2 r1.2 in
  Image.Sampler.operator_eq d1 d2 = false /\
  Image.Sampler.operator_eq d2 d1 = false /\
  r1.1.1 <> r2.1.1 /\
  Image.Sampler.sampler_object r2.2 r1.1.1 = Some d1 /\
  Image.Sampler.sampler_object r2.2 r2.1.1 = Some d2.
Proof.
  intros Hreach Hdiff r1 r2.
  assert (d1 <> d2) as Hne by (intros ->; tauto).
  assert (Image.Sampler.sampler_object r2.2 r1.1.1 = Some d1) as Hobj1.
  { apply retrieve_keeps.
    apply (consistent_retrieve d1 c drv (reachable_consistent _ _ Hreach)).
    apply retrieve_cached. }
  assert (Image.Sampler.sampler_object r2.2 r2.1.1 = Some d2) as Hobj2.
  { apply (consistent_retrieve d2 r1.1.2 r1.2).
    - apply consistent_retrieve, reachable_consistent, Hreach.
    - apply retrieve_cached. }
  split; [by apply operator_eq_false|].
  split; [by apply operator_eq_false|].
  split; [|by split].
  intros Hsame. rewrite Hsame in Hobj1. congruence.
Qed.

Lemma Cache_retrieve_distinct_witness :
  let d1 := Image.Sampler.Build_Descriptor 1 0 2 3 in
  let d2 := Image.Sampler.Build_Descriptor 1 0 2 4 in
  let c := Image.Sampler.Cache.make {| Image.Sampler.Factory.device_ := 5 |} in
  let drv := {| Image.Sampler.samplers := [d2] |} in
  let r1 := Image.Sampler.Cache.retrieve d1 c drv in
  let r2 := Image.Sampler.Cache.retrieve d2 r1.1.2 r1.2 in
  Image.Sampler.Cache.reachable c drv /\ r1.1.1 <> r2.1.1.
Proof.
  intros d1 d2 c drv.
  assert (Image.Sampler.Cache.reachable c drv) as Hreach
    by apply Image.Sampler.Cache.reachable_make.
  split; [exact Hreach|].
  apply (Cache_retrieve_distinct d1 d2 c drv Hreach).
  right; right; right. discriminate.
Defined.

(** ** Waiting on a fence *)

(** C9. [wait] takes its timeout in nanoseconds from the caller, as a
    [uint64_t], and without an argument the timeout is [UINT64_MAX], the
    largest value the parameter holds, so no argument gives a later one.
    A wait with a timeout blocks no longer than that timeout; a wait
    without one returns without the signal only after [UINT64_MAX]
    nanoseconds, blocks as long as a wait with any timeout would, and
    returns signaled whenever the fence is signaled by then. *)
Theorem Fence_wait_timeout (f : Fence.t) (signal_after : option Z) :
  Fence.timeout_nanoseconds None = UINT64_MAX /\
  UINT64_MAX = 18446744073709551615 /\
  (forall t, 0 <= t < 2 ^ 64 -> Fence.timeout_nanoseconds (Some t) = t) /\
  (forall t, 0 <= t < 2 ^ 64 -> t <= Fence.timeout_nanoseconds None) /\
  (forall t, 0 <= Fence.timeout_nanoseconds (Some t) <=
             Fence.timeout_nanoseconds None) /\
  (forall t, 0 <= t < 2 ^ 64 ->
     (Fence.wait f (Some t) signal_after).2 <= t) /\
  (forall t,
     (Fence.wait f (Some t) signal_after).2 <=
     (Fence.wait f None signal_after).2) /\
  ((Fence.wait f None signal_after).1 = Fence.timed_out ->
   (Fence.wait f None signal_after).2 = UINT64_MAX) /\
  (forall s, signal_after = Some s -> s <= UINT64_MAX ->
     Fence.wait f None signal_after = (Fence.signaled, s)).
Proof.
  assert (forall t, 0 <= t < 2 ^ 64 -> Fence.timeout_nanoseconds (Some t) = t)
    as Hsome.
  { intros t Ht. unfold Fence.timeout_nanoseconds. by apply Z.mod_small. }
  assert (forall t, 0 <= Fence.timeout_nanoseconds (Some t) <= 2 ^ 64 - 1)
    as Hconverted.
  { intros t. unfold Fence.timeout_nanoseconds.
    pose proof (Z.mod_pos_bound t (2 ^ 64)). lia. }
  assert (Fence.timeout_nanoseconds None = 2 ^ 64 - 1) as Hnone
    by reflexivity.
  assert (forall t, (Fence.wait f (Some t) signal_after).2 <=
                    Fence.timeout_nanoseconds (Some t)) as Hbounded.
  { intros t. unfold Fence.wait.
    destruct signal_after as [s|]; [|cbn [snd]; lia].
    destruct (Z.leb_spec s (Fence.timeout_nanoseconds (Some t)));
      cbn [snd]; lia. }
  split; [reflexivity|]. split; [reflexivity|]. split; [exact Hsome|].
  split; [rewrite Hnone; lia|].
  split; [intros t; rewrite Hnone; apply Hconverted|].
  split; [intros t Ht; rewrite <- (Hsome t Ht) at 2; apply Hbounded|].
  split.
  { intros t. pose proof (Hconverted t) as Ht. pose proof (Hbounded t) as Hb.
    revert Hb. unfold Fence.wait. rewrite Hnone.
    destruct signal_after as [s|]; [|cbn [snd]; lia].
    destruct (Z.leb_spec s (Fence.timeout_nanoseconds (Some t))),
      (Z.leb_spec s (2 ^ 64 - 1)); cbn [snd]; lia. }
  unfold Fence.wait. rewrite Hnone. unfold UINT64_MAX.
  split.
  { destruct signal_after as [s|]; [|reflexivity].
    destruct (Z.leb_spec s (2 ^ 64 - 1)); [discriminate | reflexivity]. }
  intros s -> Hs.
  destruct (Z.leb_spec s (2 ^ 64 - 1)); [reflexivity | lia].
Qed.

Lemma Fence_wait_timeout_witness :
  let f := {| Fence.device := 7; Fence.handle := 9 |} in
  (Fence.wait f (Some 1000) None).2 <= 1000 /\
  Fence.timeout_nanoseconds (Some 1000) = 1000 /\
  Fence.wait f None (Some 5000) = (Fence.signaled, 5000).
Proof.
  intros f.
  destruct (Fence_wait_timeout f None)
    as (_ & _ & Hsome & _ & _ & Hle & _).
  destruct (Fence_wait_timeout f (Some 5000))
    as (_ & _ & _ & _ & _ & _ & _ & _ & Hsig).
  split; [apply Hle; lia|].
  split; [apply Hsome; lia|].
  apply Hsig; [reflexivity|]. unfold UINT64_MAX. lia.
Defined.

(** The conversion of an argument that is out of range: [wait(-1)] waits
    with the default timeout. *)
Example Fence_wait_minus_one :
  Fence.timeout_nanoseconds (Some (-1)) = Fence.timeout_nanoseconds None.
Proof. reflexivity. Qed.

(** ** Resolution of the calls to [map], in every form *)

Section Map_resolution.

Variable map_memory : Memory.t -> Z.

Import Memory.

(** The outcome of overload resolution in closed form: which of the four
    templates a call reaches, by the shape of its template arguments and
    by its receiver. *)
Lemma call_resolved (site : call_site) (r : receiver) (this : t)
    (explicit : list template_argument) :
  call map_memory site r this explicit =
  match explicit with
  | [type_argument Type_] =>
      map_const map_memory this (Access.Pointer Type_ Access.Read)
  | [type_argument _; type_argument Pointer] =>
      match category r with
      | Lvalue => map_const map_memory this Pointer
      | Rvalue => ill_formed use_of_deleted_function
      end
  | [type_argument Type_; value_argument kAccess] =>
      if fits_Flags kAccess && binds map_lref r
      then map_mut map_memory this kAccess (Access.Pointer Type_ kAccess)
      else ill_formed no_matching_function
  | [type_argument _; value_argument kAccess; type_argument Pointer] =>
      if fits_Flags kAccess && negb (const_object r)
      then match category r with
           | Lvalue => map_mut map_memory this kAccess Pointer
           | Rvalue => ill_formed use_of_deleted_function
           end
      else ill_formed no_matching_function
  | _ => ill_formed no_matching_function
  end.
Proof.
  unfold call, candidates, overloads.
  destruct explicit as [|[T1|k1] [|[T2|k2] [|[T3|k3] [|a4 rest]]]];
    cbn [omap list_omap parameters bind default_pointer_read
         default_pointer_access app];
    try reflexivity;
    try (destruct r as [[] []]; reflexivity);
    try (destruct (fits_Flags k2); destruct r as [[] []]; reflexivity).
Qed.

Lemma map_mut_well_formed (this : t) (kAccess : Z) (Pointer : ctype) :
  is_well_formed (map_mut map_memory this kAccess Pointer) = true <->
  valid_access kAccess.
Proof.
  rewrite <- static_assert_condition.
  unfold map_mut, static_assert.
  destruct ((kAccess =? Access.Read) || (kAccess =? Access.Write) ||
            (kAccess =? Z.lor Access.Read Access.Write)); done.
Qed.

Lemma map_mut_inv (this : t) (kAccess : Z) (Pointer : ctype) (data : Data) :
  map_mut map_memory this kAccess Pointer = well_formed data ->
  valid_access kAccess /\
  data = {| pointer_type := Pointer;
            pointer := map_memory this;
            deleter := {| allocator_ := allocator this;
                          allocation_ := allocation this;
                          access_ := kAccess |} |}.
Proof.
  intros Hmap. split.
  - apply (map_mut_well_formed this kAccess Pointer). by rewrite Hmap.
  - revert Hmap. unfold map_mut, static_assert.
    destruct ((kAccess =? Access.Read) || (kAccess =? Access.Write) ||
              (kAccess =? Z.lor Access.Read Access.Write)); congruence.
Qed.

Lemma map_mut_not_deleted (this : t) (kAccess : Z) (Pointer : ctype) :
  map_mut map_memory this kAccess Pointer <>
  ill_formed use_of_deleted_function /\
  map_mut map_memory this kAccess Pointer <> ill_formed ambiguous_call /\
  map_mut map_memory this kAccess Pointer <> ill_formed inaccessible_member /\
  map_mut map_memory this kAccess Pointer <> ill_formed no_matching_function.
Proof.
  unfold map_mut, static_assert.
  destruct ((kAccess =? Access.Read) || (kAccess =? Access.Write) ||
            (kAccess =? Z.lor Access.Read Access.Write)); done.
Qed.

Lemma map2_well_formed_mutable (site : call_site) (this : t)
    (T : ctype) (kAccess : Z) :
  is_well_formed (map2 map_memory site mutable_binding this T kAccess) = true
  <-> valid_access kAccess.
Proof.
  unfold map2. rewrite call_resolved.
  cbn [binds ref const_qualified mutable_binding category const_object negb].
  rewrite andb_true_r.
  destruct (fits_Flags kAccess) eqn:Hfit.
  - apply map_mut_well_formed.
  - split; [discriminate|]. intros Hvalid%valid_access_fits. congruence.
Qed.

End Map_resolution.

(** X1. [map<T, kAccess>()] is well formed exactly on a mutable lvalue and
    with Read, Write or both: on a const memory, and on a temporary, the
    form with access flags finds no matching function, whatever the flags,
    Read included. *)
Theorem map_access_needs_mutable_lvalue
    (map_memory : Memory.t -> Z) (site : call_site) (r : receiver)
    (this : Memory.t) (T : ctype) (kAccess : Z) :
  (is_well_formed (Memory.map2 map_memory site r this T kAccess) = true <->
   r = mutable_binding /\ Memory.valid_access kAccess) /\
  (r <> mutable_binding ->
   Memory.map2 map_memory site r this T kAccess =
   ill_formed no_matching_function).
Proof.
  unfold Memory.map2. rewrite call_resolved.
  destruct r as [[] []]; cbn [Memory.binds Memory.ref Memory.const_qualified
                               category const_object negb];
    rewrite ?andb_false_r, ?andb_true_r;
    try (split; [split; [discriminate | intros [[=] _]] | reflexivity]).
  split; [|intros Hne; by destruct Hne].
  destruct (Memory.fits_Flags kAccess) eqn:Hfit.
  - rewrite map_mut_well_formed. unfold mutable_binding. tauto.
  - split; [discriminate|]. intros [_ Hvalid%valid_access_fits]. congruence.
Qed.

Lemma map_access_needs_mutable_lvalue_witness :
  let mapped := fun m => pMappedData (Memory.allocation_info m) in
  let this :=
    {| Memory.allocator := 1; Memory.allocation := 2;
       Memory.allocation_info := Build_VmaAllocationInfo 0 0 0 64 4096 |} in
  Memory.map2 mapped outside_class const_binding this (Named false "float")
    Memory.Access.Read = ill_formed no_matching_function.
Proof.
  intros mapped this.
  apply (map_access_needs_mutable_lvalue mapped outside_class const_binding
           this (Named false "float") Memory.Access.Read).
  discriminate.
Defined.

(** X2. A call to [map] runs into a deleted overload exactly when the
    receiver is an rvalue and the [Pointer] argument is written out: as
    [map<T, P>()], or as [map<T, kAccess, P>()] on a temporary that is not
    const with a [kAccess] that fits [Flags]. *)
Theorem map_deleted_overload_selected
    (map_memory : Memory.t -> Z) (site : call_site) (r : receiver)
    (this : Memory.t) (explicit : list Memory.template_argument) :
  Memory.call map_memory site r this explicit =
    ill_formed use_of_deleted_function <->
  category r = Rvalue /\
  ((exists T P,
      explicit = [Memory.type_argument T; Memory.type_argument P]) \/
   (exists T k P,
      explicit = [Memory.type_argument T; Memory.value_argument k;
                  Memory.type_argument P] /\
      Memory.fits_Flags k = true /\ const_object r = false)).
Proof.
  rewrite call_resolved.
  destruct explicit as [|[T1|k1] [|[T2|k2] [|[T3|k3] [|a4 rest]]]];
    try (split; [discriminate | intros [_ [(? & ? & [=]) | (? & ? & ? & [=] & _)]]]).
  - destruct r as [[] c]; cbn [category].
    + split; [discriminate | intros [[=] _]].
    + split; [intros _; split; [reflexivity | left; eauto] | reflexivity].
  - destruct (Memory.fits_Flags k2 && Memory.binds Memory.map_lref r).
    + split; [intros H; by apply map_mut_not_deleted in H|].
      intros [_ [(? & ? & [=]) | (? & ? & ? & [=] & _)]].
    + split; [discriminate|].
      intros [_ [(? & ? & [=]) | (? & ? & ? & [=] & _)]].
  - destruct r as [[] []]; cbn [category const_object negb];
      rewrite ?andb_false_r, ?andb_true_r;
      destruct (Memory.fits_Flags k2) eqn:Hfit;
      try (split; [discriminate
                  | intros [Hcat [(? & ? & [=]) | (? & ? & ? & [=] & Hf & Hc)]];
                    subst; congruence]).
    + split; [intros H; by apply map_mut_not_deleted in H|].
      intros [[=] _].
    + split; [intros _|reflexivity].
      split; [reflexivity|]. right. eauto 10.
Qed.

(** X3. A call to [map] is never ambiguous and never fails on access to a
    private member, and its outcome is the same inside the class and
    outside of it. *)
Theorem map_call_never_ambiguous
    (map_memory : Memory.t -> Z) (site site' : call_site) (r : receiver)
    (this : Memory.t) (explicit : list Memory.template_argument) :
  Memory.call map_memory site r this explicit <> ill_formed ambiguous_call /\
  Memory.call map_memory site r this explicit <>
    ill_formed inaccessible_member /\
  Memory.call map_memory site r this explicit =
    Memory.call map_memory site' r this explicit.
Proof.
  rewrite !call_resolved.
  split; [|split; [|reflexivity]];
    destruct explicit as [|[T1|k1] [|[T2|k2] [|[T3|k3] [|a4 rest]]]];
    try discriminate;
    try (destruct (category r); discriminate);
    try (destruct (Memory.fits_Flags k2 && Memory.binds Memory.map_lref r);
         [apply map_mut_not_deleted | discriminate]);
    try (destruct (Memory.fits_Flags k2 && negb (const_object r));
         [destruct (category r); [apply map_mut_not_deleted | discriminate]
         | discriminate]).
Qed.

(** X4. Every well-formed call to [map], in whatever form and on whatever
    receiver, returns its pointer under a scope on this memory's allocator
    and allocation, whose access is Read, Write or both. *)
Theorem map_scope_on_this_memory
    (map_memory : Memory.t -> Z) (site : call_site) (r : receiver)
    (this : Memory.t) (explicit : list Memory.template_argument)
    (data : Memory.Data) :
  Memory.call map_memory site r this explicit = well_formed data ->
  Memory.allocator_ (Memory.deleter data) = Memory.allocator this /\
  Memory.allocation_ (Memory.deleter data) = Memory.allocation this /\
  Memory.valid_access (Memory.access_ (Memory.deleter data)).
Proof.
  rewrite call_resolved.
  assert (forall P, Memory.map_const map_memory this P = well_formed data ->
            Memory.allocator_ (Memory.deleter data) = Memory.allocator this /\
            Memory.allocation_ (Memory.deleter data) =
              Memory.allocation this /\
            Memory.valid_access (Memory.access_ (Memory.deleter data)))
    as Hconst.
  { intros P [= <-]. repeat split. by left. }
  assert (forall k P, Memory.map_mut map_memory this k P = well_formed data ->
            Memory.allocator_ (Memory.deleter data) = Memory.allocator this /\
            Memory.allocation_ (Memory.deleter data) =
              Memory.allocation this /\
            Memory.valid_access (Memory.access_ (Memory.deleter data)))
    as Hmut.
  { intros k P [Hvalid ->]%map_mut_inv. repeat split. exact Hvalid. }
  destruct explicit as [|[T1|k1] [|[T2|k2] [|[T3|k3] [|a4 rest]]]];
    try discriminate.
  - apply Hconst.
  - destruct (category r); [apply Hconst | discriminate].
  - destruct (Memory.fits_Flags k2 && Memory.binds Memory.map_lref r);
      [apply Hmut | discriminate].
  - destruct (Memory.fits_Flags k2 && negb (const_object r));
      [|discriminate].
    destruct (category r); [apply Hmut | discriminate].
Qed.

Lemma map_scope_on_this_memory_witness :
  let mapped := fun m => pMappedData (Memory.allocation_info m) in
  let this :=
    {| Memory.allocator := 1; Memory.allocation := 2;
       Memory.allocation_info := Build_VmaAllocationInfo 0 0 0 64 4096 |} in
  let data :=
    {| Memory.pointer_type := PointerTo false (Named false "float");
       Memory.pointer := 4096;
       Memory.deleter :=
         {| Memory.allocator_ := 1; Memory.allocation_ := 2;
            Memory.access_ := 3 |} |} in
  Memory.allocator_ (Memory.deleter data) = Memory.allocator this /\
  Memory.allocation_ (Memory.deleter data) = Memory.allocation this /\
  Memory.valid_access (Memory.access_ (Memory.deleter data)).
Proof.
  intros mapped this data.
  apply (map_scope_on_this_memory mapped outside_class mutable_binding this
           [Memory.type_argument (Named false "float");
            Memory.value_argument 3]
           data).
  reflexivity.
Defined.

(** X5. With [Pointer] left to its default and an element type that is not
    a reference, a pointer through which the memory can be written is
    returned only under a scope whose access has the Write bit: no
    receiver and no flags give a writable pointer whose scope is for
    reading alone. *)
Theorem map_writable_pointer_has_Write_scope
    (map_memory : Memory.t -> Z) (site : call_site) (r : receiver)
    (this : Memory.t) (T : ctype) (kAccess : Z) (data : Memory.Data) :
  is_reference_type T = false ->
  Memory.map1 map_memory site r this T = well_formed data \/
  Memory.map2 map_memory site r this T kAccess = well_formed data ->
  is_mutable_pointer (Memory.pointer_type data) = true ->
  Z.land (Memory.access_ (Memory.deleter data)) Memory.Access.Write <> 0.
Proof.
  intros Hnoref.
  assert (is_mutable_pointer (add_pointer_t (add_const_t T)) = false)
    as Hread_only by (by destruct T).
  intros [Hmap | Hmap].
  - rewrite map1_map_const in Hmap. injection Hmap as <-.
    cbn [Memory.pointer_type]. rewrite Pointer_cases.
    change (Z.testbit Memory.Access.Read 1) with false. cbv beta iota.
    rewrite Hread_only. discriminate.
  - unfold Memory.map2 in Hmap. rewrite call_resolved in Hmap.
    destruct (Memory.fits_Flags kAccess && Memory.binds Memory.map_lref r);
      [|discriminate].
    apply map_mut_inv in Hmap as [_ ->].
    cbn [Memory.pointer_type Memory.deleter Memory.access_].
    rewrite Pointer_cases, Write_bit.
    destruct (Z.testbit kAccess 1); [done|].
    rewrite Hread_only. discriminate.
Qed.

Lemma map_writable_pointer_has_Write_scope_witness :
  let mapped := fun m => pMappedData (Memory.allocation_info m) in
  let this :=
    {| Memory.allocator := 1; Memory.allocation := 2;
       Memory.allocation_info := Build_VmaAllocationInfo 0 0 0 64 4096 |} in
  let data :=
    {| Memory.pointer_type := PointerTo false (Named false "float");
       Memory.pointer := 4096;
       Memory.deleter :=
         {| Memory.allocator_ := 1; Memory.allocation_ := 2;
            Memory.access_ := 3 |} |} in
  Z.land (Memory.access_ (Memory.deleter data)) Memory.Access.Write <> 0.
Proof.
  intros mapped this data.
  apply (map_writable_pointer_has_Write_scope mapped outside_class
           mutable_binding this (Named false "float") 3 data).
  - reflexivity.
  - right. reflexivity.
  - reflexivity.
Defined.

(** X6. The tie between access and constness is the default of [Pointer]
    only.  With a pointer type [P] written out, which [reinterpret_cast]
    accepts, [map<T, P>()] on an lvalue, const or not, returns a [P] under
    a Read scope, and [map<T, kAccess, P>()] on a mutable lvalue returns a
    [P] under a [kAccess] scope, whether or not [P] points to const. *)
Theorem map_explicit_Pointer
    (map_memory : Memory.t -> Z) (site : call_site) (r : receiver)
    (this : Memory.t) (T P : ctype) (kAccess : Z) :
  is_pointer_type P = true ->
  (category r = Lvalue ->
   Memory.call map_memory site r this
     [Memory.type_argument T; Memory.type_argument P] =
   well_formed
     {| Memory.pointer_type := P;
        Memory.pointer := map_memory this;
        Memory.deleter :=
          {| Memory.allocator_ := Memory.allocator this;
             Memory.allocation_ := Memory.allocation this;
             Memory.access_ := Memory.Access.Read |} |}) /\
  (Memory.valid_access kAccess ->
   Memory.call map_memory site mutable_binding this
     [Memory.type_argument T; Memory.value_argument kAccess;
      Memory.type_argument P] =
   well_formed
     {| Memory.pointer_type := P;
        Memory.pointer := map_memory this;
        Memory.deleter :=
          {| Memory.allocator_ := Memory.allocator this;
             Memory.allocation_ := Memory.allocation this;
             Memory.access_ := kAccess |} |}).
Proof.
  intros _. rewrite !call_resolved. split.
  - intros ->. reflexivity.
  - intros Hvalid. rewrite (valid_access_fits _ Hvalid).
    cbn [mutable_binding const_object category negb andb].
    unfold Memory.map_mut, Memory.static_assert.
    apply static_assert_condition in Hvalid. by rewrite Hvalid.
Qed.

Lemma map_explicit_Pointer_witness :
  let mapped := fun m => pMappedData (Memory.allocation_info m) in
  let float := Named false "float" in
  let this :=
    {| Memory.allocator := 1; Memory.allocation := 2;
       Memory.allocation_info := Build_VmaAllocationInfo 0 0 0 64 4096 |} in
  Memory.call mapped outside_class const_binding this
    [Memory.type_argument float; Memory.type_argument (PointerTo false float)]
  = well_formed
      {| Memory.pointer_type := PointerTo false float;
         Memory.pointer := 4096;
         Memory.deleter :=
           {| Memory.allocator_ := 1; Memory.allocation_ := 2;
              Memory.access_ := Memory.Access.Read |} |}.
Proof.
  intros mapped float this.
  apply (map_explicit_Pointer mapped outside_class const_binding this float
           (PointerTo false float) 0); reflexivity.
Defined.


(** X8. For an element type that is const itself the access flags have no
    say in the pointer: [Pointer<T, kAccess>] is [T*] and not writable for
    every [kAccess], and [map<T, kAccess>()] returns it under a scope that
    still has the access asked for, Write included. *)
Theorem map_const_element_read_only
    (map_memory : Memory.t -> Z) (site : call_site) (this : Memory.t)
    (T : ctype) (kAccess : Z) :
  is_const T = true ->
  Memory.Access.Pointer T kAccess = add_pointer_t T /\
  is_mutable_pointer (Memory.Access.Pointer T kAccess) = false /\
  (Memory.valid_access kAccess ->
   Memory.map2 map_memory site mutable_binding this T kAccess =
   well_formed
     {| Memory.pointer_type := add_pointer_t T;
        Memory.pointer := map_memory this;
        Memory.deleter :=
          {| Memory.allocator_ := Memory.allocator this;
             Memory.allocation_ := Memory.allocation this;
             Memory.access_ := kAccess |} |}).
Proof.
  intros Hconst.
  assert (Memory.Access.Pointer T kAccess = add_pointer_t T) as Hpointer.
  { rewrite Pointer_cases. destruct (Z.testbit kAccess 1); [reflexivity|].
    destruct T; cbn in Hconst |- *; by subst. }
  split; [exact Hpointer|]. rewrite Hpointer.
  split; [destruct T; cbn in Hconst |- *; by subst|].
  intros Hvalid. rewrite map2_map_mut by (by apply valid_access_fits).
  rewrite Hpointer. unfold Memory.map_mut, Memory.static_assert.
  apply static_assert_condition in Hvalid. by rewrite Hvalid.
Qed.

Lemma map_const_element_read_only_witness :
  let mapped := fun m => pMappedData (Memory.allocation_info m) in
  let this :=
    {| Memory.allocator := 1; Memory.allocation := 2;
       Memory.allocation_info := Build_VmaAllocationInfo 0 0 0 64 4096 |} in
  is_mutable_pointer
    (Memory.Access.Pointer (Named true "float") Memory.Access.Write) = false.
Proof.
  intros mapped this.
  apply (map_const_element_read_only mapped outside_class this
           (Named true "float") Memory.Access.Write).
  reflexivity.
Defined.

(** X9. The access flags [map<T, kAccess>()] accepts are the non-empty sets
    of the two flag bits: [kAccess] is accepted exactly when it is not zero
    and has no bit outside [Read | Write]; and the two flags share no
    bit. *)
Theorem map_access_flag_sets
    (map_memory : Memory.t -> Z) (site : call_site) (this : Memory.t)
    (T : ctype) (kAccess : Z) :
  (is_well_formed
     (Memory.map2 map_memory site mutable_binding this T kAccess) = true <->
   kAccess <> 0 /\
   Z.land kAccess (Z.lor Memory.Access.Read Memory.Access.Write) = kAccess) /\
  Z.land Memory.Access.Read Memory.Access.Write = 0.
Proof.
  split; [|reflexivity].
  rewrite map2_well_formed_mutable.
  change (Z.lor Memory.Access.Read Memory.Access.Write) with (Z.ones 2).
  split.
  - intros [-> | [-> | ->]]; split; (discriminate || reflexivity).
  - intros [Hnz Hland]. rewrite Z.land_ones in Hland by lia.
    assert (0 <= kAccess < 4) as Hrange.
    { rewrite <- Hland. apply Z.mod_pos_bound. lia. }
    unfold Memory.valid_access.
    change Memory.Access.Read with 1. change Memory.Access.Write with 2.
    change (Z.lor 1 2) with 3. lia.
Qed.

(** X10. A call to [map] whose template argument list has another shape
    finds no matching function: with no argument, since [Type] is not
    deduced; with more than three; with a value first; with three of which
    the second is a type or the third a value. *)
Theorem map_malformed_arguments
    (map_memory : Memory.t -> Z) (site : call_site) (r : receiver)
    (this : Memory.t) (explicit : list Memory.template_argument) :
  explicit = [] \/
  (3 < length explicit)%nat \/
  (exists k rest, explicit = Memory.value_argument k :: rest) \/
  (exists a P c, explicit = [a; Memory.type_argument P; c]) \/
  (exists a b k, explicit = [a; b; Memory.value_argument k]) ->
  Memory.call map_memory site r this explicit =
  ill_formed no_matching_function.
Proof.
  rewrite call_resolved.
  intros [-> | [Hlen | [(k & rest & ->) | [(a & P & c & ->)
                                          | (a & b & k & ->)]]]];
    try reflexivity.
  - destruct explicit as [|[T1|k1] [|[T2|k2] [|[T3|k3] [|a4 rest]]]];
      cbn [length] in Hlen; try lia; reflexivity.
  - by destruct a.
  - by destruct a, b.
Qed.

Lemma map_malformed_arguments_witness :
  let mapped := fun m => pMappedData (Memory.allocation_info m) in
  let this :=
    {| Memory.allocator := 1; Memory.allocation := 2;
       Memory.allocation_info := Build_VmaAllocationInfo 0 0 0 64 4096 |} in
  Memory.call mapped outside_class mutable_binding this [] =
  ill_formed no_matching_function.
Proof.
  intros mapped this.
  apply (map_malformed_arguments mapped outside_class mutable_binding this []).
  left. reflexivity.
Defined.
